(** * HairqareTimer: promotion-resolution and timer engine

    A shallow embedding of [src/hairqare-timer.js] and the properties its
    specification states about it.

    Conventions of the embedding.
    - A JavaScript string is the list of its UTF-16 code units ([jsstring]);
      [str] turns a literal into one.  Nothing below relies on a code unit
      being smaller than 65536.
    - JavaScript numbers that the engine handles (timer fields, timestamps,
      delays) are integers and are modelled in [Z].
    - An object used as a dictionary is a [gmap] from property names to
      values; property names are treated uniformly (the [__proto__] accessor
      of [Object.prototype] is outside the model).
    - What the platform supplies is given from outside: the answers of the
      network to [fetch], the clock, the contents of [sessionStorage], and
      [JSON.parse] as a function from texts to parsed values or a throw.
    - [this.state], [this.cache] and the host's timers are threaded through
      as explicit records.  A [throw] is the [Throw] constructor of
      [result]; a promise is its settled outcome, [Resolved] or [Rejected]. *)

From Stdlib Require Import ZArith Decimal DecimalN DecimalZ Ascii String.
From stdpp Require Import option fin_maps gmap list.

#[local] Open Scope Z_scope.
#[local] Set Warnings "-register-all".

(** ** Strings *)

Module JsString.

Definition jsstring := list N.

(** A literal, one code unit per character. *)
Definition str (s : string) : jsstring :=
  map N_of_ascii (list_ascii_of_string s).

(** A literal in which every apostrophe stands for a double quote. *)
Definition strq (s : string) : jsstring :=
  map (fun c => if (c =? 39)%N then 34%N else c) (str s).

Definition eqb (a b : jsstring) : bool := bool_decide (a = b).

(** Code units that [String.prototype.trim] strips and that [\s] matches:
    WhiteSpace and LineTerminator of ECMA-262. *)
Definition is_space (c : N) : bool :=
  ((9 <=? c) && (c <=? 13) || (c =? 32) || (c =? 160) || (c =? 5760)
   || (8192 <=? c) && (c <=? 8202) || (c =? 8232) || (c =? 8233)
   || (c =? 8239) || (c =? 8287) || (c =? 12288) || (c =? 65279))%N.

Fixpoint trimStart (s : jsstring) : jsstring :=
  match s with
  | c :: s' => if is_space c then trimStart s' else s
  | [] => []
  end.

Definition trimEnd (s : jsstring) : jsstring :=
  reverse (trimStart (reverse s)).

Definition trim (s : jsstring) : jsstring := trimEnd (trimStart s).

Fixpoint startsWith (p s : jsstring) : bool :=
  match p, s with
  | [], _ => true
  | a :: p', b :: s' => (a =? b)%N && startsWith p' s'
  | _ :: _, [] => false
  end.

(** [s.includes(p)] *)
Fixpoint includes (s p : jsstring) : bool :=
  startsWith p s || match s with [] => false | _ :: s' => includes s' p end.

Definition digit_code (d : N) : N := (48 + d)%N.

Fixpoint uint_codes (u : Decimal.uint) : jsstring :=
  match u with
  | Nil => []
  | D0 u => digit_code 0 :: uint_codes u
  | D1 u => digit_code 1 :: uint_codes u
  | D2 u => digit_code 2 :: uint_codes u
  | D3 u => digit_code 3 :: uint_codes u
  | D4 u => digit_code 4 :: uint_codes u
  | D5 u => digit_code 5 :: uint_codes u
  | D6 u => digit_code 6 :: uint_codes u
  | D7 u => digit_code 7 :: uint_codes u
  | D8 u => digit_code 8 :: uint_codes u
  | D9 u => digit_code 9 :: uint_codes u
  end.

(** [String(n)] for an integer [n]. *)
Definition String_of_Z (n : Z) : jsstring :=
  match Z.to_int n with
  | Pos u => uint_codes u
  | Neg u => 45%N :: uint_codes u
  end.


(** [s.padStart(n, '0')] *)
Definition padStart0 (n : nat) (s : jsstring) : jsstring :=
  repeat 48%N (n - length s)%nat ++ s.

End JsString.
Export JsString.

(** ** TimerEngine *)

Module Timer.

Record timerSettings := {
  initialMinutes : Z;
  initialSeconds : Z;
  restartAfterMinutes : Z
}.

(** A rendering surface is a node of the host page, named by a number. *)
Definition element := nat.

(** [this.state]'s timer fields together with what the engine has asked of
    the host: the periodic tasks armed with [setInterval] (each with the
    surface its callback closes over), the one-shot resets requested with
    [setTimeout] (each with the time at which it falls due), and the text
    of the surfaces.  [clock] is the host's time in milliseconds. *)
Record world := {
  minutes : Z;
  seconds : Z;
  timerInterval : option positive;
  intervals : gmap positive element;
  timeouts : list Z;
  textContent : gmap element jsstring;
  next_handle : positive;
  clock : Z
}.

Definition set_time (m s : Z) (w : world) : world :=
  {| minutes := m; seconds := s; timerInterval := timerInterval w;
     intervals := intervals w; timeouts := timeouts w;
     textContent := textContent w; next_handle := next_handle w;
     clock := clock w |}.

(** [updateTimerDisplay(element)], source lines 568-575. *)
Definition updateTimerDisplay (e : option element) (w : world) : world :=
  match e with
  | None => w
  | Some e =>
      let mm := padStart0 2 (String_of_Z (minutes w)) in
      let ss := padStart0 2 (String_of_Z (seconds w)) in
      {| minutes := minutes w; seconds := seconds w;
         timerInterval := timerInterval w; intervals := intervals w;
         timeouts := timeouts w;
         textContent := <[e := mm ++ str ":" ++ ss]> (textContent w);
         next_handle := next_handle w; clock := clock w |}
  end.

(** [setTimeout(callback, delay)] for the reset callback: the request is
    recorded with the time at which it falls due. *)
Definition setTimeout_reset (delay : Z) (w : world) : world :=
  {| minutes := minutes w; seconds := seconds w;
     timerInterval := timerInterval w; intervals := intervals w;
     timeouts := timeouts w ++ [clock w + delay];
     textContent := textContent w; next_handle := next_handle w;
     clock := clock w |}.

(** [handleTimerExpiration()], source lines 580-588. *)
Definition handleTimerExpiration (cfg : timerSettings) (w : world) : world :=
  setTimeout_reset (restartAfterMinutes cfg * 60 * 1000) w.

(** The callback that [handleTimerExpiration] hands to [setTimeout],
    source lines 584-587. *)
Definition reset_callback (cfg : timerSettings) (w : world) : world :=
  set_time (initialMinutes cfg) (initialSeconds cfg) w.

(** The "decrease time" part of the interval callback, source lines
    548-557. *)
Definition decrease (cfg : timerSettings) (w : world) : world :=
  if 0 <? seconds w then set_time (minutes w) (seconds w - 1) w
  else if 0 <? minutes w then set_time (minutes w - 1) 59 w
  else handleTimerExpiration cfg w.

(** The callback that [startTimer] hands to [setInterval], source lines
    547-561; [e] is the surface it closes over. *)
Definition tick (cfg : timerSettings) (e : element) (w : world) : world :=
  updateTimerDisplay (Some e) (decrease cfg w).

(** [clearInterval(h)] *)
Definition clearInterval (h : positive) (w : world) : world :=
  {| minutes := minutes w; seconds := seconds w;
     timerInterval := timerInterval w; intervals := delete h (intervals w);
     timeouts := timeouts w; textContent := textContent w;
     next_handle := next_handle w; clock := clock w |}.

(** [this.state.timerInterval = setInterval(callback, 1000)] *)
Definition setInterval_tick (e : element) (w : world) : world :=
  {| minutes := minutes w; seconds := seconds w;
     timerInterval := Some (next_handle w);
     intervals := <[next_handle w := e]> (intervals w);
     timeouts := timeouts w; textContent := textContent w;
     next_handle := Pos.succ (next_handle w); clock := clock w |}.

(** [startTimer(element)], source lines 533-562; [byId] is what
    [document.getElementById('timer-display')] returns. *)
Definition startTimer (arg byId : option element) (w : world) : world :=
  let w1 := match timerInterval w with
            | Some h => clearInterval h w
            | None => w
            end in
  match (match arg with Some e => Some e | None => byId end) with
  | None => w1
  | Some e => setInterval_tick e (updateTimerDisplay (Some e) w1)
  end.

(** The host lets [dt] milliseconds pass. *)
Definition elapse (dt : Z) (w : world) : world :=
  {| minutes := minutes w; seconds := seconds w;
     timerInterval := timerInterval w; intervals := intervals w;
     timeouts := timeouts w; textContent := textContent w;
     next_handle := next_handle w; clock := clock w + dt |}.

(** One period of the interval: a second passes and the callback runs. *)
Definition second (cfg : timerSettings) (e : element) (w : world) : world :=
  tick cfg e (elapse 1000 w).

(** The host runs the [i]-th pending reset, if it has fallen due. *)
Definition fire_timeout (cfg : timerSettings) (i : nat) (w : world)
  : option world :=
  match timeouts w !! i with
  | Some due =>
      if due <=? clock w then
        Some (reset_callback cfg
                {| minutes := minutes w; seconds := seconds w;
                   timerInterval := timerInterval w;
                   intervals := intervals w;
                   timeouts := take i (timeouts w) ++ drop (S i) (timeouts w);
                   textContent := textContent w;
                   next_handle := next_handle w; clock := clock w |})
      else None
  | None => None
  end.

(** The due times of the resets requested by [n] firings of an expired
    timer, one firing per second, the first one second after time [t]. *)
Definition resets_from (cfg : timerSettings) (t : Z) (n : nat) : list Z :=
  map (fun k : nat => t + 1000 * (Z.of_nat k + 1)
                      + restartAfterMinutes cfg * 60 * 1000) (seq 0 n).

End Timer.

(** ** Values of the configuration tree *)

Module Js.

(** A JSON-like JavaScript value.  Arrays and plain objects are the two
    composite kinds: [typeof v === 'object' && v !== null]. *)
Inductive value :=
| VUndefined
| VNull
| VBool (b : bool)
| VNum (n : Z)
| VStr (s : jsstring)
| VArr (l : list value)
| VObj (m : gmap jsstring value).

Inductive error := TypeError | SecurityError | SyntaxError | Error (msg : jsstring).

(** A computation that returns or throws. *)
Inductive result (A : Type) :=
| Ok (a : A)
| Throw (e : error).
Arguments Ok {A} a.
Arguments Throw {A} e.

#[global] Instance result_ret : MRet result := @Ok.

(** Sequencing, written [x ← e; k]: a throw in [e] skips [k]. *)
#[global] Instance result_bind : MBind result :=
  fun A B k r => match r with Ok a => k a | Throw e => Throw e end.

(** [try { body } catch (e) { handler }] *)
Definition try_catch {A} (body : result A) (handler : error -> result A)
  : result A :=
  match body with Ok a => Ok a | Throw e => handler e end.

(** A promise, by how it settles, if it does. *)
Inductive promise (A : Type) :=
| Resolved (a : A)
| Rejected (e : error)
| Pending.
Arguments Resolved {A} a.
Arguments Rejected {A} e.
Arguments Pending {A}.









Fixpoint join (sep : jsstring) (parts : list jsstring) : jsstring :=
  match parts with
  | [] => []
  | [p] => p
  | p :: ps => p ++ sep ++ join sep ps
  end.


End Js.
Export Js.

(** ** ConfigMerger *)

Module Config.










End Config.

(** ** CsvParser *)

Module Csv.

Definition row := list jsstring.

(** [text.split(sep)] for a one-character separator. *)
Fixpoint split (sep : N) (text : jsstring) : list jsstring :=
  match text with
  | [] => [[]]
  | c :: text' =>
      if (c =? sep)%N then [] :: split sep text'
      else match split sep text' with
           | line :: lines => (c :: line) :: lines
           | [] => [[c]]
           end
  end.

(** The [for] loop over the characters of one line, with its three
    variables, followed by the push of the last value. *)
Fixpoint scan_line (line : jsstring) (row : list jsstring) (inQuote : bool)
    (currentValue : jsstring) : list jsstring :=
  match line with
  | [] => row ++ [trim currentValue]
  | char :: line' =>
      if (char =? 34)%N then scan_line line' row (negb inQuote) currentValue
      else if (char =? 44)%N && negb inQuote
           then scan_line line' (row ++ [trim currentValue]) inQuote []
           else scan_line line' row inQuote (currentValue ++ [char])
  end.

Definition parse_line (line : jsstring) : row := scan_line line [] false [].

(** [row.length > 0 && row[0].trim() !== ''] *)
Definition keep_row (r : row) : bool :=
  (0 <? length r)%nat
  && match r !! 0%nat with
     | Some first => negb (eqb (trim first) [])
     | None => false
     end.

(** [parseCSV(text)], source lines 312-338. *)
Definition parseCSV (text : jsstring) : list row :=
  List.filter keep_row (map parse_line (split 10 text)).

(** A stretch of a line with no quote and no comma in it. *)
Definition plain (x : jsstring) : Prop := (34%N ∉ x) ∧ (44%N ∉ x).

(** A stretch of a line with no quote in it. *)
Definition unquoted (x : jsstring) : Prop := 34%N ∉ x.

(** A field with no whitespace at either end. *)
Definition trimmed (f : jsstring) : Prop :=
  (∀ c, head f = Some c → is_space c = false)
  ∧ (∀ c, last f = Some c → is_space c = false).

End Csv.

(** ** PromoSelector *)

Module Promo.





End Promo.

(** ** PromoDataCache *)

Module Cache.






















End Cache.

(** ** JSON values *)

Module Json.

(** What [JSON.parse] returns.  A number keeps its lexeme; an object keeps
    its members in the order of the text. *)
Inductive json :=
| JNull
| JBool (b : bool)
| JNum (lexeme : jsstring)
| JStr (s : jsstring)
| JArr (items : list json)
| JObj (members : list (jsstring * json)).

(** [o[name]] for a parsed object: the last member of that name. *)
Fixpoint member (name : jsstring) (members : list (jsstring * json))
  : option json :=
  match members with
  | [] => None
  | (k, v) :: rest =>
      match member name rest with
      | Some v' => Some v'
      | None => if eqb k name then Some v else None
      end
  end.

End Json.

(** ** CountryResolver *)

Module Country.

(** [sessionStorage]: its entries in the order of [key(i)], or a storage
    that the page may not touch, where every access throws. *)
Inductive storage :=
| Unavailable
| Available (entries : list (jsstring * jsstring)).

Fixpoint lookup_entry (key : jsstring) (entries : list (jsstring * jsstring))
  : option jsstring :=
  match entries with
  | [] => None
  | (k, v) :: rest => if eqb k key then Some v else lookup_entry key rest
  end.

(** [sessionStorage.getItem(key)]; [None] is [null]. *)
Definition getItem (ss : storage) (key : jsstring) : result (option jsstring) :=
  match ss with
  | Unavailable => Throw SecurityError
  | Available entries => Ok (lookup_entry key entries)
  end.

(** The names [sessionStorage.key(0)], [sessionStorage.key(1)], ... *)
Definition keys (ss : storage) : result (list jsstring) :=
  match ss with
  | Unavailable => Throw SecurityError
  | Available entries => Ok (map fst entries)
  end.

Definition is_upper (c : N) : bool := ((65 <=? c) && (c <=? 90))%N.

Definition marker : jsstring := str "billing_country".

(** The regular expression ["billing_country":\s*"([A-Z]{2})"] anchored at
    the start of [s]: its first group, if it matches there. *)
Definition match_here (s : jsstring) : option jsstring :=
  let prefix := [34%N] ++ marker ++ [34%N; 58%N] in
  if startsWith prefix s then
    match trimStart (drop (length prefix) s) with
    | q1 :: a :: b :: q2 :: _ =>
        if (q1 =? 34)%N && is_upper a && is_upper b && (q2 =? 34)%N
        then Some [a; b] else None
    | _ => None
    end
  else None.

(** [s.match(regex)[1]] for the leftmost match; [None] when no match. *)
Fixpoint regex_match (s : jsstring) : option jsstring :=
  match match_here s with
  | Some code => Some code
  | None => match s with [] => None | _ :: s' => regex_match s' end
  end.

(** [getCountryFromHeader()], source lines 214-219. *)
Definition getCountryFromHeader : option jsstring := None.

(** The scan of all entries, from the entry named [key] on. *)
Fixpoint scan_entries (ss : storage) (names : list jsstring)
  : result (option jsstring) :=
  match names with
  | [] => Ok None
  | key :: names' =>
      value ← getItem ss key;
      match value with
      | Some v =>
          if negb (eqb v []) && includes v marker then
            match regex_match v with
            | Some code => Ok (Some code)
            | None => scan_entries ss names'
            end
          else scan_entries ss names'
      | None => scan_entries ss names'
      end
  end.

Section Platform.

(** [JSON.parse], the platform's: it returns the parsed value or throws. *)
Variable JSON_parse : jsstring -> result Json.json.

(** The block under [if (checkoutFields)]: what it returns, if it does. *)
Definition from_checkout_fields (checkoutFields : jsstring)
  : result (option jsstring) :=
  try_catch
    (parsedFields ← JSON_parse checkoutFields;
     Ok (regex_match checkoutFields))
    (fun e => Ok None).

(** [getCountryFromSessionStorage()], source lines 225-263; [None] is
    [null]. *)
Definition getCountryFromSessionStorage (ss : storage) : result (option jsstring) :=
  try_catch
    (checkoutFields ← getItem ss (str "wc_stripe_checkout_fields");
     returned ← match checkoutFields with
                | Some cf => if negb (eqb cf []) then from_checkout_fields cf
                             else Ok None
                | None => Ok None
                end;
     match returned with
     | Some code => Ok (Some code)
     | None => names ← keys ss; scan_entries ss names
     end)
    (fun error => Ok None).

(** [new Promise(executor)] for an executor that calls [resolve] with the
    value it returns, or returns without calling it, or throws. *)
Definition new_Promise {A} (executor : result (option A)) : promise A :=
  match executor with
  | Ok (Some a) => Resolved a
  | Ok None => Pending
  | Throw e => Rejected e
  end.

(** [getCountry()], source lines 189-208. *)
Definition getCountry (ss : storage) : promise jsstring :=
  new_Promise
    (match getCountryFromHeader with
     | Some countryFromHeader => Ok (Some countryFromHeader)
     | None =>
         countryFromSession ← getCountryFromSessionStorage ss;
         match countryFromSession with
         | Some code => Ok (Some code)
         | None => Ok (Some (str "US"))
         end
     end).

End Platform.

End Country.

(** ** CountryResolver: the vocabulary of its specification *)

Module CountrySpec.
Import Country.

Definition checkout_key : jsstring := str "wc_stripe_checkout_fields".

(** A two-letter code, as the pattern admits it. *)
Definition is_code (code : jsstring) : Prop :=
  ∃ a b, code = [a; b] ∧ is_upper a = true ∧ is_upper b = true.

Section Platform.

Variable JSON_parse : jsstring -> result Json.json.

(** The session signal as the specification words it: the value under the
    well-known key is parsed and its [billing_country] field is read from
    the parsed structure; the raw string is pattern-matched only when the
    parse fails; the other entries are scanned only when the key is
    absent. *)
Definition structural_session_signal (ss : storage) : option jsstring :=
  match ss with
  | Unavailable => None
  | Available entries =>
      match lookup_entry checkout_key entries with
      | Some raw =>
          match JSON_parse raw with
          | Ok (Json.JObj members) =>
              match Json.member marker members with
              | Some (Json.JStr code) => Some code
              | _ => None
              end
          | Ok _ => None
          | Throw _ => regex_match raw
          end
      | None => head (omap regex_match (map snd entries))
      end
  end.

Definition structural_resolve (ss : storage) : jsstring :=
  match getCountryFromHeader with
  | Some code => code
  | None => default (str "US") (structural_session_signal ss)
  end.

End Platform.

(** The code that the scan of all entries finds: that of the first name,
    in the order of [key(i)], whose value matches the pattern. *)
Definition scanned (entries : list (jsstring * jsstring)) : option jsstring :=
  head (omap (λ key, lookup_entry key entries ≫= regex_match)
             (map fst entries)).

(** The value under the well-known key yields a code by itself: it is not
    empty, it parses as JSON, and the pattern matches it. *)
Definition checkout_code (JSON_parse : jsstring -> result Json.json)
    (entries : list (jsstring * jsstring)) : option jsstring :=
  match lookup_entry checkout_key entries with
  | Some raw =>
      if eqb raw [] then None
      else match JSON_parse raw with
           | Ok _ => regex_match raw
           | Throw _ => None
           end
  | None => None
  end.

End CountrySpec.


(** ** Sample data *)

Module Samples.
Import Timer Cache Country CountrySpec.

Definition settings : timerSettings :=
  {| initialMinutes := 28; initialSeconds := 0; restartAfterMinutes := 1 |}.

(** A page on which nothing has been started yet, showing [m:s]. *)
Definition idle (m s : Z) : world :=
  {| minutes := m; seconds := s; timerInterval := None; intervals := ∅;
     timeouts := []; textContent := ∅; next_handle := 1%positive;
     clock := 0 |}.

(** The same page once [startTimer] has run on surface 0. *)
Definition started (m s : Z) : world := startTimer (Some 0%nat) None (idle m s).








(** A checkout payload whose nested object names another country before
    the payload's own [billing_country]. *)
Definition payload_nested : jsstring :=
  strq "{'shipping':{'billing_country':'FR'},'billing_country':'DE'}".

(** A checkout payload for Germany. *)
Definition payload_germany : jsstring :=
  strq "{'billing_country': 'DE','billing_city':'Berlin'}".

(** [JSON.parse] on the texts that the samples hand it: the two payloads
    parse to the objects they spell, and the other text handed to it,
    that of [storage_unparsable], is not JSON. *)
Definition JSON_parse (text : jsstring) : result Json.json :=
  if eqb text payload_nested then
    Ok (Json.JObj
          [(str "shipping",
            Json.JObj [(str "billing_country", Json.JStr (str "FR"))]);
           (str "billing_country", Json.JStr (str "DE"))])
  else if eqb text payload_germany then
    Ok (Json.JObj [(str "billing_country", Json.JStr (str "DE"));
                   (str "billing_city", Json.JStr (str "Berlin"))])
  else Throw SyntaxError.

Definition storage_nested : storage := Available [(checkout_key, payload_nested)].

(** A checkout payload that is not JSON, after an entry with a marker. *)
Definition storage_unparsable : storage :=
  Available
    [(str "cart", strq "{'billing_country':'FR'}");
     (checkout_key, strq "billing:'billing_country':'DE'")].

(** A checkout payload for Germany among entries for other countries. *)
Definition storage_germany : storage :=
  Available
    [(str "cart", strq "{'billing_country':'FR'}");
     (checkout_key, payload_germany);
     (str "wishlist", strq "{'billing_country':'IT'}")].

Definition storage_no_signal : storage :=
  Available [(str "theme", str "dark"); (str "visits", str "3")].

End Samples.

(** * Properties *)

Module StringProps.

Lemma eqb_true (a b : jsstring) : eqb a b = true ↔ a = b.
Proof. unfold eqb. apply bool_decide_eq_true. Qed.

Lemma eqb_false (a b : jsstring) : eqb a b = false ↔ a ≠ b.
Proof. unfold eqb. apply bool_decide_eq_false. Qed.

Lemma trimStart_suffix s : ∃ p, s = p ++ trimStart s.
Proof.
  induction s as [|c s [p IH]]; simpl; [by exists []|].
  destruct (is_space c); [|by exists []].
  exists (c :: p). by rewrite IH at 1.
Qed.

Lemma trimStart_head s c : head (trimStart s) = Some c → is_space c = false.
Proof.
  induction s as [|d s IH]; simpl; [done|].
  destruct (is_space d) eqn:Hd; [done|]. by intros [= <-].
Qed.

Lemma trimStart_last s : trimStart s ≠ [] → last (trimStart s) = last s.
Proof.
  intros Hne. destruct (trimStart_suffix s) as [p Hp].
  rewrite Hp at 2. destruct (trimStart s) as [|c t]; [done|].
  by rewrite last_app_cons.
Qed.

Lemma trimStart_no_space s :
  match s with c :: _ => is_space c = false | [] => True end →
  trimStart s = s.
Proof. destruct s as [|c s]; simpl; [done|]. by intros ->. Qed.

(** [trim] leaves no whitespace at either end. *)
Lemma trim_head s c : head (trim s) = Some c → is_space c = false.
Proof.
  unfold trim, trimEnd. rewrite head_reverse. intros Hl.
  assert (Hne : trimStart (reverse (trimStart s)) ≠ []).
  { intros E. by rewrite E in Hl. }
  rewrite trimStart_last, last_reverse in Hl by done.
  by apply trimStart_head in Hl.
Qed.

Lemma trim_last s c : last (trim s) = Some c → is_space c = false.
Proof.
  unfold trim, trimEnd. rewrite last_reverse. apply trimStart_head.
Qed.

Lemma trim_nil : trim [] = [].
Proof. done. Qed.

End StringProps.

Module CsvProps.
Import Csv StringProps.

Lemma split_nonempty sep text : split sep text ≠ [].
Proof.
  destruct text as [|c text]; simpl; [done|].
  destruct (c =? sep)%N; [done|]. by destruct (split sep text).
Qed.

Lemma split_cons sep c text :
  (c =? sep)%N = false →
  ∃ line lines, split sep text = line :: lines
                ∧ split sep (c :: text) = (c :: line) :: lines.
Proof.
  intros Hc. simpl. rewrite Hc.
  destruct (split sep text) as [|line lines] eqn:E.
  - by destruct (split_nonempty sep text).
  - by exists line, lines.
Qed.

Lemma split_app sep a b :
  split sep (a ++ sep :: b) = split sep a ++ split sep b.
Proof.
  induction a as [|c a IH]; simpl.
  - by rewrite N.eqb_refl.
  - destruct (c =? sep)%N; [by rewrite IH|].
    rewrite IH. destruct (split sep a) as [|line lines] eqn:E; [|done].
    by destruct (split_nonempty sep a).
Qed.

Lemma split_join sep text : join [sep] (split sep text) = text.
Proof.
  induction text as [|c text IH]; simpl; [done|].
  destruct (N.eqb_spec c sep) as [->|Hne].
  - destruct (split sep text) as [|line lines] eqn:E.
    + by destruct (split_nonempty sep text).
    + simpl in *. by rewrite IH.
  - destruct (split sep text) as [|line lines] eqn:E.
    + by destruct (split_nonempty sep text).
    + rewrite <- IH. by destruct lines.
Qed.

Lemma split_no_sep sep text : Forall (λ line, sep ∉ line) (split sep text).
Proof.
  induction text as [|c text IH]; simpl.
  - repeat constructor. by intros ?%elem_of_nil.
  - destruct (N.eqb_spec c sep) as [->|Hne].
    + constructor; [by intros ?%elem_of_nil|done].
    + destruct (split sep text) as [|line lines];
        [constructor; [|done]|].
      * intros [?|?%elem_of_nil]%elem_of_cons; [congruence|done].
      * apply Forall_cons in IH as [Hl Hls].
        constructor; [|done]. intros [?|?]%elem_of_cons; [congruence|done].
Qed.

Lemma scan_line_row line r row q cur :
  scan_line line (r ++ row) q cur = r ++ scan_line line row q cur.
Proof.
  revert row q cur. induction line as [|c line IH]; intros; simpl.
  - by rewrite app_assoc.
  - destruct (c =? 34)%N; [done|].
    destruct ((c =? 44)%N && negb q); [|done]. by rewrite <- IH, app_assoc.
Qed.

(** Characters that are neither a quote nor a separating comma go to the
    current value. *)
Lemma scan_line_plain x line row q cur :
  Forall (λ c, c ≠ 34%N ∧ (c = 44%N → q = true)) x →
  scan_line (x ++ line) row q cur = scan_line line row q (cur ++ x).
Proof.
  intros Hx. revert cur. induction Hx as [|c x [Hq Hc] _ IH]; intros; simpl.
  - by rewrite app_nil_r.
  - destruct (N.eqb_spec c 34); [done|].
    destruct (N.eqb_spec c 44) as [E|E]; simpl.
    + specialize (Hc E). subst q. simpl. by rewrite IH, <- app_assoc.
    + by rewrite IH, <- app_assoc.
Qed.


Lemma plain_Forall x q :
  plain x → Forall (λ c, c ≠ 34%N ∧ (c = 44%N → q = true)) x.
Proof.
  intros [H1 H2]. apply Forall_forall. intros c Hc. split.
  - by intros ->.
  - by intros ->.
Qed.

Lemma unquoted_Forall x :
  unquoted x → Forall (λ c, c ≠ 34%N ∧ (c = 44%N → true = true)) x.
Proof. intros H. apply Forall_forall. intros c Hc. split; [by intros ->|done]. Qed.

Lemma scan_line_comma line row cur :
  scan_line (44%N :: line) row false cur
  = (row ++ [trim cur]) ++ scan_line line [] false [].
Proof. simpl. by rewrite <- scan_line_row, app_nil_r. Qed.

(** A field runs up to the first comma outside quotes. *)
Lemma parse_line_field f rest :
  plain f → parse_line (f ++ 44%N :: rest) = trim f :: parse_line rest.
Proof.
  intros Hf. unfold parse_line.
  rewrite (scan_line_plain f _ _ false) by by apply plain_Forall.
  by rewrite scan_line_comma.
Qed.

Lemma parse_line_last f : plain f → parse_line f = [trim f].
Proof.
  intros Hf. unfold parse_line. rewrite <- (app_nil_r f) at 1.
  by rewrite (scan_line_plain f _ _ false) by by apply plain_Forall.
Qed.

Lemma scan_quoted a m b line :
  plain a → unquoted m → plain b →
  scan_line (a ++ 34%N :: m ++ 34%N :: b ++ line) [] false []
  = scan_line line [] false (a ++ m ++ b).
Proof.
  intros Ha Hm Hb.
  rewrite (scan_line_plain a _ _ false) by by apply plain_Forall.
  simpl. rewrite (scan_line_plain m _ _ true) by by apply unquoted_Forall.
  simpl. rewrite (scan_line_plain b _ _ false) by by apply plain_Forall.
  by rewrite <- app_assoc.
Qed.

(** A comma between quotes stays in the field. *)
Lemma parse_line_quoted a m b rest :
  plain a → unquoted m → plain b →
  parse_line (a ++ 34%N :: m ++ 34%N :: b) = [trim (a ++ m ++ b)]
  ∧ parse_line (a ++ 34%N :: m ++ 34%N :: b ++ 44%N :: rest)
    = trim (a ++ m ++ b) :: parse_line rest.
Proof.
  intros Ha Hm Hb. unfold parse_line. split.
  - rewrite <- (app_nil_r b) at 1. by rewrite scan_quoted.
  - rewrite scan_quoted by done. by rewrite scan_line_comma.
Qed.

Lemma trim_trimmed s : trimmed (trim s).
Proof. split; intros c; [apply trim_head|apply trim_last]. Qed.

Lemma scan_line_trimmed line row q cur :
  Forall trimmed row → Forall trimmed (scan_line line row q cur).
Proof.
  revert row q cur. induction line as [|c line IH]; intros row q cur Hrow; simpl.
  - apply Forall_app. split; [done|]. repeat constructor; apply trim_trimmed.
  - destruct (c =? 34)%N; [by apply IH|].
    destruct ((c =? 44)%N && negb q); [|by apply IH].
    apply IH, Forall_app. split; [done|]. repeat constructor; apply trim_trimmed.
Qed.

Lemma trimmed_trim f : trimmed f → trim f = f.
Proof.
  intros [Hh Hl]. unfold trim.
  assert (E : trimStart f = f).
  { apply trimStart_no_space. destruct f as [|c f]; [done|]. by apply Hh. }
  rewrite E. unfold trimEnd.
  rewrite trimStart_no_space; [apply reverse_involutive|].
  destruct (reverse f) as [|c t] eqn:Er; [done|].
  apply Hl. by rewrite <- head_reverse, Er.
Qed.

Lemma keep_row_spec r :
  keep_row r = true ↔ ∃ first, head r = Some first ∧ trim first ≠ [].
Proof.
  unfold keep_row. destruct r as [|f r]; simpl.
  - split; [done|]. by intros (? & ? & ?).
  - rewrite negb_true_iff, eqb_false. split; [eauto|]. by intros (? & [= <-] & ?).
Qed.

Lemma parseCSV_app a b :
  parseCSV (a ++ 10%N :: b) = parseCSV a ++ parseCSV b.
Proof. unfold parseCSV. by rewrite split_app, map_app, List.filter_app. Qed.

Lemma parseCSV_blank n : parseCSV (repeat 10%N n) = [].
Proof.
  induction n as [|n IH]; [done|].
  change (repeat 10%N (S n)) with ([] ++ 10%N :: repeat 10%N n).
  by rewrite parseCSV_app, IH.
Qed.

Lemma parseCSV_trailing text n :
  parseCSV (text ++ repeat 10%N n) = parseCSV text.
Proof.
  destruct n as [|n]; [by rewrite app_nil_r|].
  simpl. by rewrite parseCSV_app, parseCSV_blank, app_nil_r.
Qed.

(** Claim C7.  [parseCSV] cuts the text at its newlines, reads each line
    character by character with a flag that every double quote flips, so
    that a comma between quotes stays in its field while a comma outside
    them ends the field; every field that comes out has no whitespace at
    either end; the rows kept are those whose first field is not empty once
    trimmed, so blank lines at the end add no row.  The sample line of the
    specification gives one row of four fields, and a quoted field with a
    comma in it stays one field. *)
Theorem parseCSV_rows text :
  parseCSV text = List.filter keep_row (map parse_line (split 10 text))
  ∧ join [10%N] (split 10 text) = text
  ∧ Forall (λ line, 10%N ∉ line) (split 10 text)
  ∧ (∀ line row q cur,
       scan_line (34%N :: line) row q cur = scan_line line row (negb q) cur
       ∧ scan_line (44%N :: line) row true cur
         = scan_line line row true (cur ++ [44%N])
       ∧ scan_line (44%N :: line) row false cur
         = scan_line line (row ++ [trim cur]) false [])
  ∧ (∀ a m b rest, plain a → unquoted m → plain b →
       parse_line (a ++ 34%N :: m ++ 34%N :: b) = [trim (a ++ m ++ b)]
       ∧ parse_line (a ++ 34%N :: m ++ 34%N :: b ++ 44%N :: rest)
         = trim (a ++ m ++ b) :: parse_line rest)
  ∧ (∀ f rest, plain f →
       parse_line f = [trim f]
       ∧ parse_line (f ++ 44%N :: rest) = trim f :: parse_line rest)
  ∧ (∀ r f, r ∈ parseCSV text → f ∈ r → trimmed f ∧ trim f = f)
  ∧ (∀ r, r ∈ parseCSV text ↔
          r ∈ map parse_line (split 10 text)
          ∧ ∃ first, head r = Some first ∧ trim first ≠ [])
  ∧ (∀ n, parseCSV (text ++ repeat 10%N n) = parseCSV text)
  ∧ parseCSV (str "US,4th of July,2025-07-04,2025-07-04" ++ [10%N])
    = [[str "US"; str "4th of July"; str "2025-07-04"; str "2025-07-04"]]
  ∧ parseCSV (strq "DE, 'Sale, Big!' ,2025-10-03")
    = [[str "DE"; str "Sale, Big!"; str "2025-10-03"]].
Proof.
  split; [done|]. split; [apply split_join|]. split; [apply split_no_sep|].
  split; [done|]. split; [by intros; apply parse_line_quoted|].
  split; [by intros; split; [apply parse_line_last|apply parse_line_field]|].
  assert (Hin : ∀ r, r ∈ parseCSV text ↔
            r ∈ map parse_line (split 10 text)
            ∧ ∃ first, head r = Some first ∧ trim first ≠ []).
  { intros r. unfold parseCSV.
    rewrite !list_elem_of_In, List.filter_In, <- !list_elem_of_In.
    by rewrite keep_row_spec. }
  split; [|split; [done|split; [apply parseCSV_trailing|split; by vm_compute]]].
  intros r f [Hr _]%Hin Hf.
  apply list_elem_of_fmap in Hr as (line & -> & _).
  assert (Ht : trimmed f).
  { pose proof (scan_line_trimmed line [] false [] (Forall_nil_2 _)) as Hall.
    rewrite Forall_forall in Hall. by apply Hall. }
  split; [done|by apply trimmed_trim].
Qed.

End CsvProps.

Module TimerProps.
Import Timer.

Section Tick.
Variable cfg : timerSettings.
Variable e : element.

Lemma decrease_intervals w : intervals (decrease cfg w) = intervals w.
Proof. unfold decrease. by repeat case_match. Qed.

Lemma decrease_timerInterval w : timerInterval (decrease cfg w) = timerInterval w.
Proof. unfold decrease. by repeat case_match. Qed.

Lemma tick_minutes w : minutes (tick cfg e w) = minutes (decrease cfg w).
Proof. done. Qed.

Lemma tick_seconds w : seconds (tick cfg e w) = seconds (decrease cfg w).
Proof. done. Qed.

Lemma tick_timeouts w : timeouts (tick cfg e w) = timeouts (decrease cfg w).
Proof. done. Qed.

Lemma tick_intervals w : intervals (tick cfg e w) = intervals w.
Proof. apply decrease_intervals. Qed.

Lemma tick_timerInterval w : timerInterval (tick cfg e w) = timerInterval w.
Proof. apply decrease_timerInterval. Qed.

Lemma tick_clock w : clock (tick cfg e w) = clock w.
Proof. unfold tick, decrease. by repeat case_match. Qed.

Lemma decrease_expired w :
  minutes w = 0 → seconds w = 0 →
  decrease cfg w = handleTimerExpiration cfg w.
Proof. intros Hm Hs. unfold decrease. by rewrite Hm, Hs. Qed.

(** Claim C1.  One firing of the interval callback, from a state whose
    minutes are non-negative and whose seconds lie in [0,59]: with seconds
    left it takes one second off and keeps the minutes; with no seconds
    but minutes left it takes one minute off and sets the seconds to 59;
    at (0,0) it runs the expiration handler, which requests one reset, and
    the state stays (0,0).  Minutes and seconds never become negative.
    From (0,1) the state becomes (0,0); from (1,0) it becomes (0,59). *)
Theorem tick_step w :
  0 ≤ minutes w → 0 ≤ seconds w ≤ 59 →
  let w' := tick cfg e w in
  (0 < seconds w →
     seconds w' = seconds w - 1 ∧ minutes w' = minutes w
     ∧ timeouts w' = timeouts w)
  ∧ (seconds w = 0 → 0 < minutes w →
     minutes w' = minutes w - 1 ∧ seconds w' = 59
     ∧ timeouts w' = timeouts w)
  ∧ (seconds w = 0 → minutes w = 0 →
     minutes w' = 0 ∧ seconds w' = 0
     ∧ timeouts w' =
         timeouts w ++ [clock w + restartAfterMinutes cfg * 60 * 1000])
  ∧ 0 ≤ minutes w' ∧ 0 ≤ seconds w' ≤ 59
  ∧ (minutes w = 0 → seconds w = 1 → minutes w' = 0 ∧ seconds w' = 0)
  ∧ (minutes w = 1 → seconds w = 0 → minutes w' = 0 ∧ seconds w' = 59).
Proof.
  intros Hm Hs w'. subst w'.
  rewrite tick_minutes, tick_seconds, tick_timeouts. unfold decrease.
  destruct (Z.ltb_spec 0 (seconds w)) as [H1|H1];
    [|destruct (Z.ltb_spec 0 (minutes w)) as [H2|H2]]; simpl;
    repeat split; intros; try lia; try done.
Qed.

Lemma tick_display w :
  textContent (tick cfg e w) !! e =
    Some (padStart0 2 (String_of_Z (minutes (decrease cfg w))) ++ str ":"
          ++ padStart0 2 (String_of_Z (seconds (decrease cfg w)))).
Proof. unfold tick, updateTimerDisplay; simpl. by rewrite lookup_insert_eq. Qed.

Lemma fire_timeout_due w i due :
  timeouts w !! i = Some due → due ≤ clock w →
  ∃ w', fire_timeout cfg i w = Some w'
        ∧ minutes w' = initialMinutes cfg ∧ seconds w' = initialSeconds cfg
        ∧ intervals w' = intervals w ∧ timerInterval w' = timerInterval w
        ∧ timeouts w' = take i (timeouts w) ++ drop (S i) (timeouts w)
        ∧ clock w' = clock w.
Proof.
  intros Hi Hdue. unfold fire_timeout. rewrite Hi.
  destruct (Z.leb_spec due (clock w)); [|lia]. eexists; split; [done|]. done.
Qed.

Lemma fire_timeout_early w i due :
  timeouts w !! i = Some due → clock w < due → fire_timeout cfg i w = None.
Proof.
  intros Hi Hdue. unfold fire_timeout. rewrite Hi.
  destruct (Z.leb_spec due (clock w)); [lia|done].
Qed.

Lemma fire_timeout_Some w i w' :
  fire_timeout cfg i w = Some w' →
  minutes w' = initialMinutes cfg ∧ seconds w' = initialSeconds cfg
  ∧ intervals w' = intervals w ∧ timerInterval w' = timerInterval w.
Proof.
  unfold fire_timeout. destruct (timeouts w !! i) as [due|]; [|done].
  destruct (due <=? clock w); [|done]. by intros [= <-].
Qed.

Lemma second_intervals w : intervals (second cfg e w) = intervals w.
Proof. unfold second. by rewrite tick_intervals. Qed.

(** Claim C8.  The firing at (0,0) renders [00:00] and requests one reset,
    due [restartAfterMinutes] minutes later; the host cannot run it before
    that time, and when it runs it, minutes and seconds are the configured
    initial ones. *)
Theorem expiration_restart w :
  minutes w = 0 → seconds w = 0 →
  let w' := tick cfg e w in
  let delay := restartAfterMinutes cfg * 60 * 1000 in
  let i := length (timeouts w) in
  textContent w' !! e = Some (str "00:00")
  ∧ timeouts w' = timeouts w ++ [clock w + delay]
  ∧ (∀ dt, dt < delay → fire_timeout cfg i (elapse dt w') = None)
  ∧ (∀ dt, delay ≤ dt →
       ∃ w'', fire_timeout cfg i (elapse dt w') = Some w''
              ∧ minutes w'' = initialMinutes cfg
              ∧ seconds w'' = initialSeconds cfg).
Proof.
  intros Hm Hs w' delay i.
  assert (Ht : timeouts w' = timeouts w ++ [clock w + delay]).
  { subst w'. rewrite tick_timeouts, decrease_expired by done. done. }
  assert (Hi : ∀ dt, timeouts (elapse dt w') !! i = Some (clock w + delay)).
  { intros dt. change (timeouts (elapse dt w')) with (timeouts w').
    rewrite Ht. subst i. by rewrite lookup_app_r, Nat.sub_diag. }
  assert (Hc : ∀ dt, clock (elapse dt w') = clock w + dt).
  { intros dt. change (clock (elapse dt w')) with (clock w' + dt).
    subst w'. by rewrite tick_clock. }
  split; [|split; [done|split]].
  - subst w'. rewrite tick_display, decrease_expired by done. simpl.
    by rewrite Hm, Hs.
  - intros dt Hdt. eapply fire_timeout_early; [apply Hi|]. rewrite Hc. lia.
  - intros dt Hdt.
    destruct (fire_timeout_due (elapse dt w') i _ (Hi dt)) as (w'' & ? & ? & ? & _).
    { rewrite Hc. lia. }
    eauto.
Qed.

Lemma second_expired w :
  minutes w = 0 → seconds w = 0 →
  let w' := second cfg e w in
  minutes w' = 0 ∧ seconds w' = 0
  ∧ intervals w' = intervals w ∧ timerInterval w' = timerInterval w
  ∧ clock w' = clock w + 1000
  ∧ timeouts w' =
      timeouts w ++ [clock w + 1000 + restartAfterMinutes cfg * 60 * 1000].
Proof.
  intros Hm Hs w'. subst w'. unfold second.
  rewrite tick_minutes, tick_seconds, tick_intervals, tick_timerInterval,
    tick_clock, tick_timeouts, decrease_expired by done.
  done.
Qed.

Lemma seconds_expired w n :
  minutes w = 0 → seconds w = 0 →
  let w' := Nat.iter n (second cfg e) w in
  minutes w' = 0 ∧ seconds w' = 0
  ∧ intervals w' = intervals w ∧ timerInterval w' = timerInterval w
  ∧ clock w' = clock w + 1000 * Z.of_nat n
  ∧ timeouts w' = timeouts w ++ resets_from cfg (clock w) n.
Proof.
  intros Hm Hs. cbv zeta. induction n as [|n IH]; [simpl|rewrite Nat.iter_succ].
  - unfold resets_from; simpl. rewrite app_nil_r. repeat split; lia.
  - destruct IH as (IHm & IHs & IHi & IHt & IHc & IHp).
    destruct (second_expired (Nat.iter n (second cfg e) w) IHm IHs)
      as (-> & -> & -> & -> & -> & ->).
    rewrite IHi, IHt, IHc, IHp. repeat split; try lia.
    unfold resets_from. rewrite seq_S, map_app, <- app_assoc. simpl.
    do 3 f_equal. lia.
Qed.

Lemma resets_from_first t n :
  (0 < n)%nat →
  resets_from cfg t n !! 0%nat
  = Some (t + 1000 + restartAfterMinutes cfg * 60 * 1000).
Proof.
  destruct n as [|n]; [lia|]. intros _. unfold resets_from. simpl.
  f_equal; lia.
Qed.

(** [startTimer] on a surface renders it and arms one interval for it,
    after clearing the interval recorded in the state. *)
Lemma startTimer_arms w :
  let w' := startTimer (Some e) None w in
  timerInterval w' = Some (next_handle w)
  ∧ intervals w' !! next_handle w = Some e
  ∧ minutes w' = minutes w ∧ seconds w' = seconds w
  ∧ (∀ h, timerInterval w = Some h → h ≠ next_handle w →
          intervals w' !! h = None).
Proof.
  unfold startTimer. destruct (timerInterval w) as [h0|] eqn:E; simpl.
  - rewrite lookup_insert_eq. repeat split; try done.
    intros h [= <-] Hne. by rewrite lookup_insert_ne, lookup_delete_eq.
  - rewrite lookup_insert_eq. repeat split; done.
Qed.

(** Claim C10.  With the interval armed and the state at (0,0): after any
    number of further seconds the state is still (0,0), the interval is
    still armed and recorded, and one more reset is pending for each of
    those seconds; the first of these resets can run once its delay has
    passed; whenever a reset runs, the interval is still armed, the state
    is the configured initial one, and the next firing counts down from it
    as any firing does. *)
Theorem expired_ticking_never_cancelled w h :
  timerInterval w = Some h → intervals w !! h = Some e →
  minutes w = 0 → seconds w = 0 →
  (∀ n, let w' := Nat.iter n (second cfg e) w in
        minutes w' = 0 ∧ seconds w' = 0
        ∧ timerInterval w' = Some h ∧ intervals w' !! h = Some e
        ∧ timeouts w' = timeouts w ++ resets_from cfg (clock w) n
        ∧ length (timeouts w') = (length (timeouts w) + n)%nat)
  ∧ (∀ n i w', fire_timeout cfg i (Nat.iter n (second cfg e) w) = Some w' →
        minutes w' = initialMinutes cfg ∧ seconds w' = initialSeconds cfg
        ∧ timerInterval w' = Some h ∧ intervals w' !! h = Some e
        ∧ decrease cfg w' =
            (if 0 <? initialSeconds cfg
             then set_time (initialMinutes cfg) (initialSeconds cfg - 1) w'
             else if 0 <? initialMinutes cfg
                  then set_time (initialMinutes cfg - 1) 59 w'
                  else handleTimerExpiration cfg w')
        ∧ intervals (second cfg e w') !! h = Some e)
  ∧ (∀ n, (0 < n)%nat →
        restartAfterMinutes cfg * 60 * 1000 ≤ 1000 * (Z.of_nat n - 1) →
        ∃ w', fire_timeout cfg (length (timeouts w))
                (Nat.iter n (second cfg e) w) = Some w').
Proof.
  intros Ht Hi Hm Hs. split; [|split].
  - intros n w'. subst w'.
    destruct (seconds_expired w n Hm Hs) as (-> & -> & -> & -> & _ & ->).
    repeat split; try done.
    rewrite length_app. unfold resets_from. by rewrite length_map, length_seq.
  - intros n i w' Hf.
    destruct (seconds_expired w n Hm Hs) as (_ & _ & Hi' & Ht' & _ & _).
    destruct (fire_timeout_Some _ _ _ Hf) as (Hm' & Hs' & Hi'' & Ht'').
    rewrite second_intervals, Hi'', Ht'', Hi', Ht'.
    repeat split; try done.
    unfold decrease. by rewrite Hm', Hs'.
  - intros n Hn Hdue.
    destruct (seconds_expired w n Hm Hs) as (_ & _ & _ & _ & Hc & Hp).
    destruct (fire_timeout_due (Nat.iter n (second cfg e) w)
                (length (timeouts w))
                (clock w + 1000 + restartAfterMinutes cfg * 60 * 1000))
      as (w' & Hf & _).
    + by rewrite Hp, lookup_app_r, Nat.sub_diag, resets_from_first.
    + rewrite Hc. lia.
    + eauto.
Qed.

End Tick.

Lemma tick_step_witness :
  minutes (tick Samples.settings 0%nat (Samples.started 0 1)) = 0
  ∧ seconds (tick Samples.settings 0%nat (Samples.started 0 1)) = 0.
Proof.
  assert (Hm : 0 ≤ minutes (Samples.started 0 1)) by done.
  assert (Hs : 0 ≤ seconds (Samples.started 0 1) ≤ 59) by done.
  destruct (tick_step Samples.settings 0%nat (Samples.started 0 1) Hm Hs)
    as (_ & _ & _ & _ & _ & H & _).
  by apply H.
Defined.

Lemma expiration_restart_witness :
  textContent (tick Samples.settings 0%nat (Samples.started 0 0)) !! 0%nat
  = Some (str "00:00").
Proof.
  assert (Hm : minutes (Samples.started 0 0) = 0) by done.
  assert (Hs : seconds (Samples.started 0 0) = 0) by done.
  destruct (expiration_restart Samples.settings 0%nat (Samples.started 0 0)
              Hm Hs) as (H & _).
  exact H.
Defined.

Lemma expired_ticking_never_cancelled_witness :
  length (timeouts (Nat.iter 3 (second Samples.settings 0%nat)
                      (Samples.started 0 0))) = 3%nat.
Proof.
  assert (Ht : timerInterval (Samples.started 0 0) = Some 1%positive) by done.
  assert (Hi : intervals (Samples.started 0 0) !! 1%positive = Some 0%nat)
    by done.
  assert (Hm : minutes (Samples.started 0 0) = 0) by done.
  assert (Hs : seconds (Samples.started 0 0) = 0) by done.
  destruct (expired_ticking_never_cancelled Samples.settings 0%nat
              (Samples.started 0 0) 1%positive Ht Hi Hm Hs) as (H & _).
  destruct (H 3%nat) as (_ & _ & _ & _ & _ & Hl). exact Hl.
Defined.

End TimerProps.

Module PromoProps.
Import Promo.






End PromoProps.

Module CacheProps.
Import Cache.
















End CacheProps.

Module IndexProps.





Section Keyed.
Context {A : Type}.






End Keyed.
End IndexProps.

Module ConfigProps.
Import Config IndexProps.














End ConfigProps.

Module CountryProps.
Import Country CountrySpec.

Lemma startsWith_app p q s :
  startsWith (p ++ q) s = true → startsWith p s = true.
Proof.
  revert s. induction p as [|a p IH]; intros [|b s]; simpl; try done.
  intros [-> H]%andb_true_iff. simpl. by apply IH.
Qed.

Lemma startsWith_cons a p b s :
  startsWith (a :: p) (b :: s) = (a =? b)%N && startsWith p s.
Proof. done. Qed.

Lemma includes_cons c s p : includes s p = true → includes (c :: s) p = true.
Proof. intros H. simpl. rewrite H. apply orb_true_r. Qed.

Lemma includes_startsWith s p : startsWith p s = true → includes s p = true.
Proof. intros H. destruct s; simpl; by rewrite H. Qed.

Lemma match_here_marker s code :
  match_here s = Some code → includes s marker = true ∧ is_code code.
Proof.
  unfold match_here.
  destruct (startsWith _ s) eqn:Hp; [|done]. intros Hm. split.
  - destruct s as [|q s]; [done|].
    change ([34%N] ++ marker ++ [34%N; 58%N]) with (34%N :: marker ++ [34%N; 58%N]) in Hp.
    rewrite startsWith_cons in Hp. apply andb_true_iff in Hp as [_ Hp].
    apply includes_cons, includes_startsWith. by apply startsWith_app in Hp.
  - destruct (trimStart _) as [|q1 [|a [|b [|q2 ?]]]]; try done.
    destruct ((q1 =? 34)%N && is_upper a && is_upper b && (q2 =? 34)%N) eqn:E;
      [|done].
    injection Hm as <-.
    apply andb_true_iff in E as [E _]. apply andb_true_iff in E as [E Hb].
    apply andb_true_iff in E as [_ Ha]. by exists a, b.
Qed.

Lemma regex_match_marker s code :
  regex_match s = Some code →
  s ≠ [] ∧ includes s marker = true ∧ is_code code.
Proof.
  induction s as [|c s IH]; simpl regex_match.
  - destruct (match_here []) eqn:E; [|done]. by vm_compute in E.
  - destruct (match_here (c :: s)) as [code'|] eqn:E.
    + intros [= ->]. split; [done|]. by apply match_here_marker.
    + intros [_ [Hi Hc]]%IH. split; [done|]. split; [|done].
      by apply includes_cons.
Qed.

(** The guard of the scan, [value && value.includes('billing_country')],
    lets through every value that the pattern matches. *)
Lemma guarded_match v :
  (if negb (eqb v []) && includes v marker then regex_match v else None)
  = regex_match v.
Proof.
  destruct (regex_match v) as [code|] eqn:E; [|by case_match].
  apply regex_match_marker in E as (Hne & -> & _).
  unfold eqb. by rewrite bool_decide_eq_false_2.
Qed.

Lemma scan_entries_available entries names :
  scan_entries (Available entries) names
  = Ok (head (omap (λ key, lookup_entry key entries ≫= regex_match) names)).
Proof.
  induction names as [|key names IH]; simpl; [done|].
  destruct (lookup_entry key entries) as [v|]; simpl; [|done].
  pose proof (guarded_match v) as G.
  destruct (negb (eqb v []) && includes v marker).
  - by destruct (regex_match v).
  - by rewrite <- G.
Qed.

Lemma lookup_entry_nodup pre k v entries :
  NoDup (map fst (pre ++ (k, v) :: entries)) →
  lookup_entry k (pre ++ (k, v) :: entries) = Some v.
Proof.
  induction pre as [|[k' v'] pre IH]; simpl; intros Hnd.
  - unfold eqb. by rewrite bool_decide_eq_true_2.
  - apply NoDup_cons in Hnd as [Hk' Hnd].
    unfold eqb. rewrite bool_decide_eq_false_2; [by apply IH|].
    intros ->. apply Hk'. rewrite map_app. apply elem_of_app. right.
    simpl. by left.
Qed.

Lemma omap_lookup_nodup pre entries :
  NoDup (map fst (pre ++ entries)) →
  omap (λ key, lookup_entry key (pre ++ entries) ≫= regex_match)
       (map fst entries)
  = omap regex_match (map snd entries).
Proof.
  revert pre. induction entries as [|[k v] entries IH]; intros pre Hnd; [done|].
  cbn [map fst snd omap list_omap]. rewrite lookup_entry_nodup by done.
  cbn [mbind option_bind].
  replace (pre ++ (k, v) :: entries) with ((pre ++ [(k, v)]) ++ entries) in *
    by (by rewrite <- app_assoc).
  by rewrite IH.
Qed.

Lemma scanned_nodup entries :
  NoDup (map fst entries) →
  scanned entries = head (omap regex_match (map snd entries)).
Proof.
  intros Hnd. unfold scanned. f_equal. by apply (omap_lookup_nodup []).
Qed.

Section Platform.

Variable JSON_parse : jsstring → result Json.json.

Lemma getCountryFromSessionStorage_available entries :
  getCountryFromSessionStorage JSON_parse (Available entries)
  = Ok (match checkout_code JSON_parse entries with
        | Some code => Some code
        | None => scanned entries
        end).
Proof.
  unfold getCountryFromSessionStorage, checkout_code, scanned. simpl.
  change (str "wc_stripe_checkout_fields") with checkout_key.
  destruct (lookup_entry checkout_key entries) as [raw|]; simpl.
  - destruct (eqb raw []); simpl.
    + by rewrite scan_entries_available.
    + unfold from_checkout_fields.
      destruct (JSON_parse raw); simpl.
      * destruct (regex_match raw); simpl; [done|].
        by rewrite scan_entries_available.
      * by rewrite scan_entries_available.
  - by rewrite scan_entries_available.
Qed.

Lemma getCountry_available entries :
  getCountry JSON_parse (Available entries)
  = Resolved (default (str "US")
                (match checkout_code JSON_parse entries with
                 | Some code => Some code
                 | None => scanned entries
                 end)).
Proof.
  unfold getCountry. simpl. rewrite getCountryFromSessionStorage_available.
  simpl. by destruct (checkout_code JSON_parse entries), (scanned entries).
Qed.

Lemma head_omap_code {A} (f : A → option jsstring) l code :
  (∀ a c, f a = Some c → is_code c) →
  head (omap f l) = Some code → is_code code.
Proof.
  intros Hf. induction l as [|a l IH]; simpl; [done|].
  destruct (f a) as [c|] eqn:E; [|done]. simpl. intros [= <-]. eauto.
Qed.

Lemma US_code : is_code (str "US").
Proof. by exists 85%N, 83%N. Qed.

Lemma scanned_code entries code : scanned entries = Some code → is_code code.
Proof.
  apply head_omap_code. intros key c.
  destruct (lookup_entry key entries) as [v|]; simpl; [|done].
  intros H. by apply regex_match_marker in H as (_ & _ & ?).
Qed.

Lemma checkout_code_Some entries raw parsed code :
  lookup_entry checkout_key entries = Some raw →
  JSON_parse raw = Ok parsed → regex_match raw = Some code →
  checkout_code JSON_parse entries = Some code.
Proof.
  intros Hl Hp Hm. unfold checkout_code. rewrite Hl, Hp.
  apply regex_match_marker in Hm as Hne. destruct Hne as [Hne _].
  unfold eqb. by rewrite bool_decide_eq_false_2.
Qed.

Lemma checkout_code_None entries :
  lookup_entry checkout_key entries = None
  ∨ (∃ raw, lookup_entry checkout_key entries = Some raw
            ∧ ((∃ e, JSON_parse raw = Throw e) ∨ regex_match raw = None)) →
  checkout_code JSON_parse entries = None.
Proof.
  unfold checkout_code. intros [->|(raw & -> & [[e ->]| ->])]; [done| |].
  - by destruct (eqb raw []).
  - destruct (eqb raw []); [done|]. by destruct (JSON_parse raw).
Qed.

Lemma checkout_code_code entries code :
  checkout_code JSON_parse entries = Some code → is_code code.
Proof.
  unfold checkout_code. destruct (lookup_entry _ _) as [raw|]; [|done].
  destruct (eqb raw []); [done|]. destruct (JSON_parse raw); [|done].
  intros H. by apply regex_match_marker in H as (_ & _ & ?).
Qed.

(** Claim C4 (as amended).  [getCountry] always resolves, with two capital
    letters.  The header gives nothing.  When the value under the checkout
    key parses as JSON and the pattern matches it, the code is the first
    match of the pattern in the raw value; the parsed structure is not
    read.  When that key is absent, or its value does not parse, or the
    pattern does not match it, the entries are scanned in the order of
    their names and the code is that of the first one whose value the
    pattern matches.  With no code found, and with a storage that cannot
    be read, the code is [US]. *)
Theorem getCountry_resolves ss :
  (∃ code, getCountry JSON_parse ss = Resolved code ∧ is_code code)
  ∧ getCountryFromHeader = None
  ∧ getCountry JSON_parse Unavailable = Resolved (str "US")
  ∧ (∀ entries, ss = Available entries →
       (∀ raw parsed code,
          lookup_entry checkout_key entries = Some raw →
          JSON_parse raw = Ok parsed → regex_match raw = Some code →
          getCountry JSON_parse ss = Resolved code)
       ∧ (lookup_entry checkout_key entries = None
          ∨ (∃ raw, lookup_entry checkout_key entries = Some raw
                    ∧ ((∃ e, JSON_parse raw = Throw e)
                       ∨ regex_match raw = None)) →
          getCountry JSON_parse ss = Resolved (default (str "US") (scanned entries)))
       ∧ (NoDup (map fst entries) →
          scanned entries = head (omap regex_match (map snd entries))))
  ∧ getCountry Samples.JSON_parse Samples.storage_germany = Resolved (str "DE")
  ∧ getCountry Samples.JSON_parse Samples.storage_no_signal = Resolved (str "US")
  ∧ getCountry JSON_parse (Available []) = Resolved (str "US").
Proof.
  split; [|split; [done|split; [done|split; [|by vm_compute]]]].
  - destruct ss as [|entries]; [exists (str "US"); split; [done|apply US_code]|].
    rewrite getCountry_available. eexists; split; [done|].
    destruct (checkout_code JSON_parse entries) as [code|] eqn:E.
    + by apply checkout_code_code in E.
    + destruct (scanned entries) as [code|] eqn:E'; [|apply US_code].
      by apply scanned_code in E'.
  - intros entries ->. rewrite getCountry_available. split; [|split].
    + intros raw parsed code Hl Hp Hm.
      by rewrite (checkout_code_Some _ _ _ _ Hl Hp Hm).
    + intros H. by rewrite (checkout_code_None _ H).
    + apply scanned_nodup.
Qed.

End Platform.

(** The checkout payload names Germany in its own [billing_country] field
    and France in a nested one that comes first in the text: reading the
    parsed structure gives [DE], the engine gives [FR]. *)
Lemma nested_country_wins :
  structural_resolve Samples.JSON_parse Samples.storage_nested = str "DE"
  ∧ getCountry Samples.JSON_parse Samples.storage_nested = Resolved (str "FR")
  ∧ str "FR" ≠ str "DE".
Proof. repeat split; by vm_compute. Qed.

(** A checkout payload that does not parse is not pattern-matched on its
    own: the scan of all entries decides, and an earlier entry wins. *)
Lemma unparsable_checkout_is_scanned :
  structural_resolve Samples.JSON_parse Samples.storage_unparsable = str "DE"
  ∧ getCountry Samples.JSON_parse Samples.storage_unparsable = Resolved (str "FR").
Proof. split; by vm_compute. Qed.

End CountryProps.
